(** * rpg-syntax.ts: the two containers, [PriorityQueue] and [Inventory]

    A shallow embedding of the classes [PriorityQueue<T>], [BSTNode<T>] and
    [Inventory] of [src/rpg-syntax.ts], and the properties of their
    operations.

    - JavaScript objects of class [BSTNode] live in a store and are named by
      references; [insertNode] assigns to the fields of the nodes it walks
      through, so the store is threaded through it explicitly.
    - Strings are [String.string], sequences of 8-bit characters; the
      relational operator [<] on strings is the lexicographic comparison of
      their code units ([String.ltb]) and [===] is equality of contents
      ([String.eqb]).
    - Priorities are integers ([Z]); on them the comparator
      [(a, b) => b.priority - a.priority] is exact.  Elsewhere a [number]
      is a binary64 floating-point number ([float]), with the arithmetic
      and the comparisons of IEEE 754.
    - Recursion through the store is bounded by a fuel argument; running out
      of it is the outcome [Err Exhausted], which is kept apart from a
      returned value. *)

From Stdlib Require Import ZArith String Ascii Lia Sorted Permutation.
From Stdlib Require OrderedTypeEx Floats.
From stdpp Require Import base option list.

Local Open Scope nat_scope.

(** ** Outcomes of a call *)

Inductive fault : Type :=
| Dangling    (* a reference that names no object of the store *)
| Exhausted.  (* the recursion went deeper than the fuel *)

Inductive result (A : Type) : Type :=
| Ok (a : A)
| Err (e : fault).

Arguments Ok {A} a.
Arguments Err {A} e.

Definition bind {A B : Type} (m : result A) (k : A -> result B) : result B :=
  match m with
  | Ok a => k a
  | Err e => Err e
  end.

Notation "'call' x <- m 'in' k" := (bind m (fun x => k))
  (at level 10, x name, m at level 100, k at level 200).
Notation "'call' ' pat <- m 'in' k" :=
  (bind m (fun x => match x with pat => k end))
  (at level 10, pat pattern, m at level 100, k at level 200).

Lemma bind_Ok_inv {A B : Type} (m : result A) (k : A -> result B) (b : B) :
  bind m k = Ok b -> exists a, m = Ok a /\ k a = Ok b.
Proof. destruct m as [a|e]; simpl; [eauto | discriminate]. Qed.

(** ** xTree: Binary Search Tree *)

Module Inventory.

(** [enum Rarity] *)
Inductive Rarity : Type := Common | Uncommon | Rare | Legendary.

(** [type Item = { name: string; rarity: Rarity }] *)
Record Item : Type := mkItem { name : string; rarity : Rarity }.

(** A reference to a [BSTNode] object. *)
Definition ref : Type := nat.

(** [class BSTNode<T>], at [T = Item]; [null] is [None]. *)
Record BSTNode : Type := mkNode {
  value : Item;
  left : option ref;
  right : option ref
}.

(** [new BSTNode(value)] *)
Definition new_BSTNode (v : Item) : BSTNode :=
  {| value := v; left := None; right := None |}.

Definition set_left (c : option ref) (n : BSTNode) : BSTNode :=
  {| value := value n; left := c; right := right n |}.

Definition set_right (c : option ref) (n : BSTNode) : BSTNode :=
  {| value := value n; left := left n; right := c |}.

(** The store of node objects: the reference [p] names the [p]-th object
    ever created. *)
Definition alloc (h : list BSTNode) (n : BSTNode) : list BSTNode * ref :=
  (h ++ [n], length h).

Definition deref (h : list BSTNode) (p : ref) : result BSTNode :=
  match h !! p with
  | Some n => Ok n
  | None => Err Dangling
  end.

(** [class Inventory]: the field [root], together with the store its
    nodes live in. *)
Record Inventory : Type := mkInventory {
  heap : list BSTNode;
  root : option ref
}.

(** [new Inventory()] *)
Definition empty : Inventory := {| heap := []; root := None |}.

(** The arrow function [insertNode] of [Inventory.insert].  The value of
    an assignment expression [node.left = e] is the value of [e], and that
    is what each recursive call returns. *)
Fixpoint insertNode (fuel : nat) (h : list BSTNode) (node : option ref)
    (v : Item) : result (list BSTNode * ref) :=
  match fuel with
  | 0 => Err Exhausted
  | S fuel' =>
      match node with
      | None => Ok (alloc h (new_BSTNode v))
      | Some p =>
          call n <- deref h p in
          if String.ltb (name v) (name (value n))
          then call '(h1, r) <- insertNode fuel' h (left n) v in
               Ok (alter (set_left (Some r)) p h1, r)
          else call '(h1, r) <- insertNode fuel' h (right n) v in
               Ok (alter (set_right (Some r)) p h1, r)
      end
  end.

(** [Inventory.insert] *)
Definition insert (fuel : nat) (inv : Inventory) (item : Item)
    : result Inventory :=
  call '(h, r) <- insertNode fuel (heap inv) (root inv) item in
  Ok {| heap := h; root := Some r |}.

(** [Inventory.traverseInOrder].  The callback is any function of the node
    it is handed and of the caller's own state; it does not assign to the
    nodes. *)
Section Traverse.
Context {St : Type} (callback : ref -> BSTNode -> St -> St).

Fixpoint traverseInOrder_from (fuel : nat) (h : list BSTNode)
    (node : option ref) (acc : St) : result St :=
  match fuel with
  | 0 => Err Exhausted
  | S fuel' =>
      match node with
      | None => Ok acc
      | Some p =>
          call n <- deref h p in
          call acc1 <- traverseInOrder_from fuel' h (left n) acc in
          traverseInOrder_from fuel' h (right n) (callback p n acc1)
      end
  end.

(** The call with the default argument [node = this.root]. *)
Definition traverseInOrder (fuel : nat) (inv : Inventory) (acc : St)
    : result St :=
  traverseInOrder_from fuel (heap inv) (root inv) acc.
End Traverse.

(** The calls of the callback, in order: which node, and what it held. *)
Definition visits (fuel : nat) (inv : Inventory)
    : result (list (ref * BSTNode)) :=
  traverseInOrder (fun p n acc => acc ++ [(p, n)]) fuel inv [].

Definition visited_names (fuel : nat) (inv : Inventory)
    : result (list string) :=
  call vs <- visits fuel inv in Ok (map (fun pn => name (value (snd pn))) vs).

Definition visited_items (fuel : nat) (inv : Inventory)
    : result (list Item) :=
  call vs <- visits fuel inv in Ok (map (fun pn => value (snd pn)) vs).

(** The arrow function [searchNode] of [Inventory.searchItem]. *)
Fixpoint searchNode (fuel : nat) (h : list BSTNode) (node : option ref)
    (nm : string) : result (option ref) :=
  match fuel with
  | 0 => Err Exhausted
  | S fuel' =>
      match node with
      | None => Ok None
      | Some p =>
          call n <- deref h p in
          if String.eqb nm (name (value n)) then Ok (Some p)
          else if String.ltb nm (name (value n))
               then searchNode fuel' h (left n) nm
               else searchNode fuel' h (right n) nm
      end
  end.

(** [Inventory.searchItem]: [searchNode(this.root, name)?.value || null].
    An [Item] is an object, hence truthy, so [|| null] only turns the
    [undefined] of the optional chain into [null]. *)
Definition searchItem (fuel : nat) (inv : Inventory) (nm : string)
    : result (option Item) :=
  call r <- searchNode fuel (heap inv) (root inv) nm in
  match r with
  | None => Ok None
  | Some p => call n <- deref (heap inv) p in Ok (Some (value n))
  end.

(** A sequence of [insert] calls. *)
Fixpoint insert_all (fuel : nat) (items : list Item) (inv : Inventory)
    : result Inventory :=
  match items with
  | [] => Ok inv
  | item :: items' =>
      call inv1 <- insert fuel inv item in insert_all fuel items' inv1
  end.

(** *** The tree reachable from a reference *)

Inductive tree : Type :=
| Leaf
| Node (l : tree) (p : ref) (n : BSTNode) (r : tree).

Inductive is_tree (h : list BSTNode) : option ref -> tree -> Prop :=
| is_tree_null : is_tree h None Leaf
| is_tree_node p n l r :
    h !! p = Some n ->
    is_tree h (left n) l ->
    is_tree h (right n) r ->
    is_tree h (Some p) (Node l p n r).

Fixpoint height (t : tree) : nat :=
  match t with
  | Leaf => 0
  | Node l _ _ r => S (Nat.max (height l) (height r))
  end.

Fixpoint inorder (t : tree) : list (ref * BSTNode) :=
  match t with
  | Leaf => []
  | Node l p n r => inorder l ++ (p, n) :: inorder r
  end.

Definition key (pn : ref * BSTNode) : string := name (value (snd pn)).

Definition keys (t : tree) : list string := map key (inorder t).

(** The ordering invariant, with the comparison the code uses: keys on the
    left are [<] the node's key, keys on the right are not. *)
Fixpoint bst (t : tree) : Prop :=
  match t with
  | Leaf => True
  | Node l _ n r =>
      Forall (fun k => String.ltb k (name (value n)) = true) (keys l) /\
      Forall (fun k => String.ltb k (name (value n)) = false) (keys r) /\
      bst l /\ bst r
  end.

(** Non-decreasing order of names. *)
Definition name_le (a b : string) : Prop := String.leb a b = true.

(** The inventory holds one node, a leaf with [item], and nothing else is
    reachable from its root. *)
Definition single_node (inv : Inventory) (p : ref) (item : Item) : Prop :=
  root inv = Some p /\
  heap inv !! p = Some (new_BSTNode item) /\
  is_tree (heap inv) (root inv) (Node Leaf p (new_BSTNode item) Leaf).

(** Every inventory that [insert] calls can build has a tree of height at
    most one under its root. *)
Definition shallow (inv : Inventory) : Prop :=
  exists t, is_tree (heap inv) (root inv) t /\ height t <= 1.

(** The tree under the root after any sequence of inserts into a new
    inventory: nothing, or one leaf holding the last item. *)
Inductive last_only : list Item -> tree -> Prop :=
| last_only_nil : last_only [] Leaf
| last_only_snoc items item p :
    last_only (items ++ [item]) (Node Leaf p (new_BSTNode item) Leaf).

(** *** Facts about the store *)

Lemma deref_Ok (h : list BSTNode) (p : ref) (n : BSTNode) :
  deref h p = Ok n <-> h !! p = Some n.
Proof.
  unfold deref. destruct (h !! p) as [m|]; split; intros H;
    inversion H; reflexivity.
Qed.

Lemma is_tree_functional (h : list BSTNode) (o : option ref) (t1 t2 : tree) :
  is_tree h o t1 -> is_tree h o t2 -> t1 = t2.
Proof.
  intros H1. revert t2.
  induction H1 as [|p n l r Hp Hl IHl Hr IHr]; intros t2 H2;
    inversion H2; subst; [reflexivity|].
  assert (n0 = n) as -> by congruence.
  f_equal; [apply IHl | apply IHr]; assumption.
Qed.

(** *** [insertNode] always hands back the node it has just created *)

Lemma insertNode_fresh (fuel : nat) :
  forall (h : list BSTNode) (node : option ref) (v : Item)
         (h' : list BSTNode) (r : ref),
    insertNode fuel h node v = Ok (h', r) ->
    r = length h /\ length h' = S (length h) /\
    h' !! r = Some (new_BSTNode v).
Proof.
  induction fuel as [|fuel IH]; intros h node v h' r H; simpl in H;
    [discriminate|].
  destruct node as [p|].
  - apply bind_Ok_inv in H as (n & Hn & H). apply deref_Ok in Hn.
    assert (p < length h) as Hp by (eapply lookup_lt_Some; eassumption).
    destruct (String.ltb _ _);
      apply bind_Ok_inv in H as ([h1 r1] & Hrec & H);
      inversion H; subst; clear H;
      apply IH in Hrec as (-> & Hlen & Hlk);
      (split; [reflexivity|]);
      (split; [rewrite length_alter; assumption|]);
      rewrite list_lookup_alter_ne by lia; assumption.
  - unfold alloc in H. inversion H; subst; clear H.
    split; [reflexivity|]. split.
    + rewrite length_app. simpl. lia.
    + apply list_lookup_middle. reflexivity.
Qed.

Lemma insertNode_total (h : list BSTNode) (v : Item) :
  forall (node : option ref) (t : tree),
    is_tree h node t ->
    forall fuel, height t < fuel ->
    exists h' r, insertNode fuel h node v = Ok (h', r).
Proof.
  intros node t Ht.
  induction Ht as [|p n l r Hp Hl IHl Hr IHr]; intros fuel Hf;
    (destruct fuel as [|fuel]; [lia|]); simpl.
  - eauto.
  - simpl in Hf. unfold deref. rewrite Hp. simpl.
    destruct (String.ltb _ _).
    + destruct (IHl fuel) as (h1 & r1 & ->); [lia|]. simpl. eauto.
    + destruct (IHr fuel) as (h1 & r1 & ->); [lia|]. simpl. eauto.
Qed.

Lemma insert_single_node (fuel : nat) (inv inv' : Inventory) (item : Item) :
  insert fuel inv item = Ok inv' ->
  single_node inv' (length (heap inv)) item.
Proof.
  unfold insert. intros H.
  apply bind_Ok_inv in H as ([h r] & Hins & H). inversion H; subst; clear H.
  apply insertNode_fresh in Hins as (-> & _ & Hlk).
  unfold single_node. simpl. split; [reflexivity|]. split; [assumption|].
  apply is_tree_node; [assumption | constructor | constructor].
Qed.

Lemma shallow_empty : shallow empty.
Proof. exists Leaf. split; [constructor | simpl; lia]. Qed.

Lemma single_node_shallow (inv : Inventory) (p : ref) (item : Item) :
  single_node inv p item -> shallow inv.
Proof.
  intros (_ & _ & Ht). eexists. split; [exact Ht | simpl; lia].
Qed.

Lemma insert_total (fuel : nat) (inv : Inventory) (item : Item) :
  2 <= fuel -> shallow inv ->
  exists inv', insert fuel inv item = Ok inv'.
Proof.
  intros Hf (t & Ht & Hh). unfold insert.
  destruct (insertNode_total (heap inv) item _ _ Ht fuel) as (h' & r & ->);
    [lia|].
  simpl. eauto.
Qed.

Lemma insert_all_app (fuel : nat) (xs ys : list Item) :
  forall inv,
    insert_all fuel (xs ++ ys) inv =
    (call inv1 <- insert_all fuel xs inv in insert_all fuel ys inv1).
Proof.
  induction xs as [|x xs IH]; intros inv; simpl; [reflexivity|].
  destruct (insert fuel inv x) as [inv1|e]; simpl; [apply IH | reflexivity].
Qed.

Lemma insert_all_total (fuel : nat) (items : list Item) :
  2 <= fuel ->
  forall inv, shallow inv ->
  exists inv', insert_all fuel items inv = Ok inv' /\ shallow inv'.
Proof.
  intros Hf. induction items as [|x xs IH]; intros inv Hs; simpl.
  - eauto.
  - destruct (insert_total fuel inv x Hf Hs) as (inv1 & H1). rewrite H1. simpl.
    apply IH. eapply single_node_shallow, insert_single_node, H1.
Qed.

(** After a non-empty sequence of inserts: the state before the last
    insert, and the single node left by it. *)
Lemma insert_all_last (fuel : nat) (items : list Item) (item : Item) :
  2 <= fuel ->
  exists inv0 inv,
    insert_all fuel items empty = Ok inv0 /\
    insert fuel inv0 item = Ok inv /\
    insert_all fuel (items ++ [item]) empty = Ok inv /\
    single_node inv (length (heap inv0)) item.
Proof.
  intros Hf.
  destruct (insert_all_total fuel items Hf empty shallow_empty)
    as (inv0 & H0 & Hs0).
  destruct (insert_total fuel inv0 item Hf Hs0) as (inv & H1).
  exists inv0, inv. split; [assumption|]. split; [assumption|]. split.
  - rewrite insert_all_app, H0. simpl. rewrite H1. reflexivity.
  - eapply insert_single_node, H1.
Qed.

(** *** Traversal of a well-formed tree *)

Lemma traverseInOrder_from_is_tree {St : Type}
    (cb : ref -> BSTNode -> St -> St) (h : list BSTNode) :
  forall (node : option ref) (t : tree),
    is_tree h node t ->
    forall (fuel : nat) (acc : St), height t < fuel ->
    traverseInOrder_from cb fuel h node acc =
    Ok (fold_left (fun a pn => cb (fst pn) (snd pn) a) (inorder t) acc).
Proof.
  intros node t Ht.
  induction Ht as [|p n l r Hp Hl IHl Hr IHr]; intros fuel acc Hf;
    (destruct fuel as [|fuel]; [lia|]); simpl; [reflexivity|].
  simpl in Hf. unfold deref. rewrite Hp. simpl.
  rewrite IHl by lia. simpl. rewrite IHr by lia.
  rewrite fold_left_app. reflexivity.
Qed.

Lemma fold_left_snoc {A B : Type} (l acc : list (A * B)) :
  fold_left (fun a x => a ++ [(fst x, snd x)]) l acc = acc ++ l.
Proof.
  revert acc. induction l as [|[x y] l IH]; intros acc; simpl.
  - rewrite app_nil_r. reflexivity.
  - rewrite IH, <- app_assoc. reflexivity.
Qed.

Lemma visits_is_tree (fuel : nat) (inv : Inventory) (t : tree) :
  is_tree (heap inv) (root inv) t -> height t < fuel ->
  visits fuel inv = Ok (inorder t).
Proof.
  intros Ht Hf. unfold visits, traverseInOrder.
  rewrite (traverseInOrder_from_is_tree _ _ _ _ Ht) by assumption.
  f_equal. apply (fold_left_snoc (inorder t) []).
Qed.

(** *** Search in a well-formed tree *)

Lemma searchNode_sound (fuel : nat) (h : list BSTNode) (nm : string) :
  forall (node : option ref) (p : ref),
    searchNode fuel h node nm = Ok (Some p) ->
    exists n, h !! p = Some n /\ name (value n) = nm.
Proof.
  induction fuel as [|fuel IH]; intros node p H; simpl in H;
    [discriminate|].
  destruct node as [q|]; [|discriminate].
  apply bind_Ok_inv in H as (n & Hn & H). apply deref_Ok in Hn.
  destruct (String.eqb_spec nm (name (value n))) as [Heq|Hne].
  - inversion H; subst. eauto.
  - destruct (String.ltb _ _); eapply IH; eassumption.
Qed.

Lemma searchNode_absent (h : list BSTNode) (nm : string) :
  forall (node : option ref) (t : tree),
    is_tree h node t ->
    Forall (fun k => k <> nm) (keys t) ->
    forall fuel, height t < fuel ->
    searchNode fuel h node nm = Ok None.
Proof.
  intros node t Ht.
  induction Ht as [|p n l r Hp Hl IHl Hr IHr]; intros Hk fuel Hf;
    (destruct fuel as [|fuel]; [lia|]); simpl; [reflexivity|].
  simpl in Hf. unfold keys in Hk. simpl in Hk.
  rewrite map_app in Hk. apply Forall_app in Hk as [Hkl Hkr].
  apply Forall_cons_1 in Hkr as [Hkn Hkr]. unfold key in Hkn. simpl in Hkn.
  unfold deref. rewrite Hp. simpl.
  destruct (String.eqb_spec nm (name (value n))) as [Heq|Hne];
    [congruence|].
  destruct (String.ltb _ _); [apply IHl | apply IHr];
    solve [assumption | lia].
Qed.

(** *** What a sequence of inserts leaves under the root *)

Lemma single_node_visits (fuel : nat) (inv : Inventory) (p : ref)
    (item : Item) :
  2 <= fuel -> single_node inv p item ->
  visits fuel inv = Ok [(p, new_BSTNode item)].
Proof.
  intros Hf (_ & _ & Ht).
  rewrite (visits_is_tree fuel inv _ Ht) by (simpl; lia). reflexivity.
Qed.

Lemma single_node_searchItem (fuel : nat) (inv : Inventory) (p : ref)
    (item : Item) (nm : string) :
  2 <= fuel -> single_node inv p item ->
  searchItem fuel inv nm =
  Ok (if String.eqb nm (name item) then Some item else None).
Proof.
  intros Hf (Hr & Hp & _). unfold searchItem. rewrite Hr.
  destruct fuel as [|[|fuel]]; [lia | lia |]. simpl.
  unfold deref. rewrite Hp. simpl.
  destruct (String.eqb nm (name item)); simpl.
  - rewrite Hp. reflexivity.
  - destruct (String.ltb nm (name item)); reflexivity.
Qed.

Lemma insert_all_reach (fuel : nat) (items : list Item) :
  2 <= fuel ->
  exists inv t,
    insert_all fuel items empty = Ok inv /\
    is_tree (heap inv) (root inv) t /\
    last_only items t.
Proof.
  intros Hf. induction items as [|item items _] using rev_ind.
  - exists empty, Leaf. repeat split; constructor.
  - destruct (insert_all_last fuel items item Hf)
      as (inv0 & inv & _ & _ & Hall & Hsn).
    exists inv. eexists. split; [exact Hall|].
    split; [apply Hsn | constructor].
Qed.

Lemma last_only_height (items : list Item) (t : tree) :
  last_only items t -> height t < 2.
Proof. intros []; simpl; lia. Qed.

(** *** Properties of the operations *)

Local Open Scope string_scope.

(** C1, on the code: after [insert({name: "b"})] and [insert({name: "a"})],
    [searchItem("b")] returns [null], although an item named "b" was
    inserted: the second insert has replaced the root by its own leaf. *)
Theorem searchItem_misses_inserted_item (k : nat) (r1 r2 : Rarity) :
  exists inv,
    insert_all (2 + k) [mkItem "b" r1; mkItem "a" r2] empty = Ok inv /\
    searchItem (2 + k) inv "b" = Ok None /\
    searchItem (2 + k) inv "a" = Ok (Some (mkItem "a" r2)).
Proof. eexists. repeat split; reflexivity. Qed.

(** Which names [searchItem] finds after a non-empty sequence of inserts:
    the name of the last item, and no other. *)
Lemma searchItem_after_inserts (fuel : nat) (items : list Item)
    (item : Item) (nm : string) :
  2 <= fuel ->
  exists inv,
    insert_all fuel (items ++ [item]) empty = Ok inv /\
    searchItem fuel inv nm =
    Ok (if String.eqb nm (name item) then Some item else None).
Proof.
  intros Hf.
  destruct (insert_all_last fuel items item Hf)
    as (inv0 & inv & _ & _ & Hall & Hsn).
  exists inv. split; [exact Hall|].
  eapply single_node_searchItem; eassumption.
Qed.

(** C2, on the code: inserting items named "b", "a", "b" into a new
    inventory creates three nodes, the third one written into the [right]
    field of the node of "a", but leaves the root on the third node, a leaf;
    traversing calls the callback once, on that leaf, so the names visited
    are ["b"], not ["a"; "b"; "b"]. *)
Theorem traverse_b_a_b_visits_one (k : nat) (r1 r2 r3 : Rarity) :
  exists inv,
    insert_all (2 + k) [mkItem "b" r1; mkItem "a" r2; mkItem "b" r3] empty
      = Ok inv /\
    heap inv = [ mkNode (mkItem "b" r1) (Some 1) None;
                 mkNode (mkItem "a" r2) None (Some 2);
                 mkNode (mkItem "b" r3) None None ] /\
    root inv = Some 2 /\
    visits (2 + k) inv = Ok [(2, new_BSTNode (mkItem "b" r3))] /\
    visited_names (2 + k) inv = Ok ["b"].
Proof. eexists. repeat split; reflexivity. Qed.

(** C3: for every sequence of inserts into a new inventory followed by
    [insert(item)], the last call succeeds and sets [root] to the node it
    has created (a reference that named nothing before the call), that
    node is a leaf holding [item], and the tree reachable from the root is
    that single node; a traversal visits it and nothing else. *)
Theorem insert_root_is_new_leaf (items : list Item) (item : Item)
    (fuel : nat) (Hf : 2 <= fuel) :
  exists inv0 inv,
    insert_all fuel items empty = Ok inv0 /\
    insert fuel inv0 item = Ok inv /\
    insert_all fuel (items ++ [item]) empty = Ok inv /\
    heap inv0 !! length (heap inv0) = None /\
    root inv = Some (length (heap inv0)) /\
    heap inv !! length (heap inv0) = Some (new_BSTNode item) /\
    is_tree (heap inv) (root inv)
      (Node Leaf (length (heap inv0)) (new_BSTNode item) Leaf) /\
    visits fuel inv = Ok [(length (heap inv0), new_BSTNode item)] /\
    visited_items fuel inv = Ok [item].
Proof.
  destruct (insert_all_last fuel items item Hf)
    as (inv0 & inv & H0 & H1 & Hall & Hsn).
  exists inv0, inv.
  pose proof (single_node_visits fuel inv _ item Hf Hsn) as Hv.
  destruct Hsn as (Hr & Hp & Ht).
  repeat (split; [first [assumption | apply lookup_ge_None_2; lia]|]).
  unfold visited_items. rewrite Hv. reflexivity.
Qed.

Lemma insert_root_is_new_leaf_witness :
  2 <= 2 /\
  exists inv0 inv,
    insert_all 2 [mkItem "b" Common; mkItem "a" Rare] empty = Ok inv0 /\
    insert 2 inv0 (mkItem "b" Legendary) = Ok inv /\
    insert_all 2 ([mkItem "b" Common; mkItem "a" Rare]
                    ++ [mkItem "b" Legendary]) empty = Ok inv /\
    heap inv0 !! length (heap inv0) = None /\
    root inv = Some (length (heap inv0)) /\
    heap inv !! length (heap inv0)
      = Some (new_BSTNode (mkItem "b" Legendary)) /\
    is_tree (heap inv) (root inv)
      (Node Leaf (length (heap inv0))
         (new_BSTNode (mkItem "b" Legendary)) Leaf) /\
    visits 2 inv
      = Ok [(length (heap inv0), new_BSTNode (mkItem "b" Legendary))] /\
    visited_items 2 inv = Ok [mkItem "b" Legendary].
Proof.
  split; [lia|].
  apply (insert_root_is_new_leaf
           [mkItem "b" Common; mkItem "a" Rare] (mkItem "b" Legendary) 2).
  lia.
Defined.



(** C8: after every insert of a sequence of inserts into a new inventory,
    the tree reachable from the root satisfies the ordering invariant at
    every node: keys of the left subtree are less than the node's key and
    keys of the right subtree are not. *)
Theorem insert_keeps_bst (items : list Item) (fuel : nat) (Hf : 2 <= fuel) :
  exists inv t,
    insert_all fuel items empty = Ok inv /\
    is_tree (heap inv) (root inv) t /\
    bst t /\
    (forall t', is_tree (heap inv) (root inv) t' -> bst t').
Proof.
  destruct (insert_all_reach fuel items Hf) as (inv & t & Hall & Ht & Hl).
  assert (bst t) as Hb.
  { destruct Hl; simpl; [exact I|].
    unfold keys; simpl. repeat split; constructor. }
  exists inv, t. repeat split; try assumption.
  intros t' Ht'. rewrite (is_tree_functional _ _ _ _ Ht' Ht). exact Hb.
Qed.

Lemma insert_keeps_bst_witness :
  2 <= 3 /\
  exists inv t,
    insert_all 3 [mkItem "b" Common; mkItem "a" Rare; mkItem "c" Rare] empty
      = Ok inv /\
    is_tree (heap inv) (root inv) t /\
    bst t /\
    (forall t', is_tree (heap inv) (root inv) t' -> bst t').
Proof.
  split; [lia|].
  apply (insert_keeps_bst
           [mkItem "b" Common; mkItem "a" Rare; mkItem "c" Rare] 3).
  lia.
Defined.

End Inventory.

(** ** xHeap: Priority Queue *)

Module PriorityQueue.

Local Open Scope Z_scope.

(** *** [Array.prototype.sort(comparefn)]

    The sort of an array is stable: [x] is moved before [y] only when
    [comparefn(y, x) > 0] for an earlier [y].  The elements are taken in
    array order and each is put behind the last element that is not to come
    after it. *)
Section ArraySort.
Context {A : Type} (comparefn : A -> A -> Z).

Fixpoint sort_insert (x : A) (l : list A) : list A :=
  match l with
  | [] => [x]
  | y :: l' =>
      if comparefn y x <=? 0 then y :: sort_insert x l' else x :: y :: l'
  end.

Definition Array_sort (l : list A) : list A :=
  fold_left (fun acc x => sort_insert x acc) l [].
End ArraySort.

(** *** [class PriorityQueue<T>] *)

(** An element of the array [heap]: [{ value: T; priority: number }]. *)
Record entry (T : Type) : Type := mkEntry { value : T; priority : Z }.
Arguments mkEntry {T} value priority.
Arguments value {T} e.
Arguments priority {T} e.

Record PriorityQueue (T : Type) : Type := mkQueue { heap : list (entry T) }.
Arguments mkQueue {T} heap.
Arguments heap {T} p.

(** [new PriorityQueue<T>()] *)
Definition empty {T : Type} : PriorityQueue T := mkQueue [].

(** The comparator [(a, b) => b.priority - a.priority]. *)
Definition by_priority {T : Type} (a b : entry T) : Z :=
  priority b - priority a.

(** [enqueue]: [push], then [sort]. *)
Definition enqueue {T : Type} (v : T) (p : Z) (q : PriorityQueue T)
    : PriorityQueue T :=
  mkQueue (Array_sort by_priority (heap q ++ [mkEntry v p])).

(** [dequeue]: [this.heap.shift()?.value]; [undefined] is [None]. *)
Definition dequeue {T : Type} (q : PriorityQueue T)
    : option T * PriorityQueue T :=
  match heap q with
  | [] => (None, q)
  | e :: l => (Some (value e), mkQueue l)
  end.

(** Interleavings of the two operations. *)
Inductive op (T : Type) : Type :=
| Enqueue (v : T) (p : Z)
| Dequeue.
Arguments Enqueue {T} v p.
Arguments Dequeue {T}.

Definition step {T : Type} (q : PriorityQueue T) (o : op T)
    : PriorityQueue T :=
  match o with
  | Enqueue v p => enqueue v p q
  | Dequeue => snd (dequeue q)
  end.

Definition run {T : Type} (ops : list (op T)) (q : PriorityQueue T)
    : PriorityQueue T :=
  fold_left step ops q.

(** [n] calls of [dequeue] in a row, with what they return. *)
Fixpoint dequeue_n {T : Type} (n : nat) (q : PriorityQueue T)
    : list (option T) * PriorityQueue T :=
  match n with
  | O => ([], q)
  | S n' =>
      let (v, q1) := dequeue q in
      let (vs, q2) := dequeue_n n' q1 in
      (v :: vs, q2)
  end.

(** Non-increasing priorities along the array. *)
Definition sorted_desc {T : Type} (l : list (entry T)) : Prop :=
  StronglySorted (fun a b => priority b <= priority a) l.

Definition has_priority {T : Type} (p : Z) (e : entry T) : bool :=
  priority e =? p.

(** Sequences of [enqueue], and the entries they push. *)
Definition enqueues {T : Type} (es : list (T * Z)) : list (op T) :=
  map (fun vp => Enqueue (fst vp) (snd vp)) es.

Definition entries {T : Type} (es : list (T * Z)) : list (entry T) :=
  map (fun vp => mkEntry (fst vp) (snd vp)) es.

(** *** The sort permutes the array *)

Section ArraySortFacts.
Context {A : Type} (comparefn : A -> A -> Z).

Lemma sort_insert_perm (x : A) (l : list A) :
  Permutation (sort_insert comparefn x l) (x :: l).
Proof.
  induction l as [|y l IH]; simpl; [reflexivity|].
  destruct (comparefn y x <=? 0); [|reflexivity].
  rewrite IH. apply perm_swap.
Qed.

Lemma fold_sort_insert_perm (l acc : list A) :
  Permutation (fold_left (fun acc x => sort_insert comparefn x acc) l acc)
              (acc ++ l).
Proof.
  revert acc. induction l as [|y l IH]; intros acc; simpl.
  - rewrite app_nil_r. reflexivity.
  - rewrite IH, sort_insert_perm. simpl. apply Permutation_middle.
Qed.

Lemma Array_sort_perm (l : list A) : Permutation (Array_sort comparefn l) l.
Proof. apply (fold_sort_insert_perm l []). Qed.
End ArraySortFacts.

Section Queue.
Context {T : Type}.
Implicit Types (l acc : list (entry T)) (x y e : entry T).
Implicit Types (q : PriorityQueue T).

(** Where the sort puts an entry pushed behind a sorted array: behind
    the entries of greater or equal priority, before the smaller ones. *)
Lemma sort_insert_split x l :
  sorted_desc l ->
  exists l1 l2,
    l = l1 ++ l2 /\
    Forall (fun e => priority x <= priority e) l1 /\
    Forall (fun e => priority e < priority x) l2 /\
    sort_insert by_priority x l = l1 ++ x :: l2.
Proof.
  induction l as [|y l IH]; intros Hs.
  - exists [], []. repeat split; constructor.
  - apply StronglySorted_inv in Hs as [Hs Hy]. simpl.
    unfold by_priority at 1.
    destruct (Z.leb_spec (priority x - priority y) 0) as [Hle|Hgt].
    + destruct (IH Hs) as (l1 & l2 & -> & H1 & H2 & ->).
      exists (y :: l1), l2. repeat split; try assumption.
      constructor; [lia | assumption].
    + exists [], (y :: l). repeat split; [constructor|].
      constructor; [lia|].
      eapply Forall_impl; [exact Hy|]. simpl. intros e He. lia.
Qed.

Lemma sort_insert_sorted x l :
  sorted_desc l -> sorted_desc (sort_insert by_priority x l).
Proof.
  induction l as [|y l IH]; intros Hs; simpl.
  - repeat constructor.
  - pose proof Hs as Hs0.
    apply StronglySorted_inv in Hs as [Hs Hy].
    unfold by_priority at 1.
    destruct (Z.leb_spec (priority x - priority y) 0) as [Hle|Hgt].
    + constructor; [apply IH, Hs|].
      rewrite sort_insert_perm. constructor; [lia | exact Hy].
    + constructor; [exact Hs0|].
      constructor; [lia|].
      eapply Forall_impl; [exact Hy|]. simpl. intros e He. lia.
Qed.

Lemma fold_sort_insert_sorted l acc :
  sorted_desc acc ->
  sorted_desc (fold_left (fun acc x => sort_insert by_priority x acc) l acc).
Proof.
  revert acc. induction l as [|y l IH]; intros acc Hs; simpl;
    [exact Hs|].
  apply IH, sort_insert_sorted, Hs.
Qed.

Lemma Array_sort_sorted l : sorted_desc (Array_sort by_priority l).
Proof. apply fold_sort_insert_sorted. constructor. Qed.

Lemma sort_insert_last x acc :
  Forall (fun e => priority x <= priority e) acc ->
  sort_insert by_priority x acc = acc ++ [x].
Proof.
  induction 1 as [|y acc Hy Hacc IH]; simpl; [reflexivity|].
  unfold by_priority at 1.
  destruct (Z.leb_spec (priority x - priority y) 0) as [Hle|Hgt]; [|lia].
  rewrite IH. reflexivity.
Qed.

Lemma sorted_desc_app_head acc y l :
  sorted_desc (acc ++ y :: l) ->
  Forall (fun e => priority y <= priority e) acc.
Proof.
  induction acc as [|a acc IH]; simpl; intros Hs; [constructor|].
  apply StronglySorted_inv in Hs as [Hs Ha].
  constructor; [|apply IH, Hs].
  apply Forall_app in Ha as [_ Ha]. apply Forall_cons_1 in Ha as [Ha _].
  exact Ha.
Qed.

Lemma fold_sort_insert_id l acc :
  sorted_desc (acc ++ l) ->
  fold_left (fun acc x => sort_insert by_priority x acc) l acc = acc ++ l.
Proof.
  revert acc. induction l as [|y l IH]; intros acc Hs; simpl.
  - rewrite app_nil_r. reflexivity.
  - rewrite (sort_insert_last y acc)
      by (eapply sorted_desc_app_head; exact Hs).
    rewrite IH; rewrite <- app_assoc; [reflexivity | exact Hs].
Qed.

(** Sorting a sorted array to which one entry was pushed. *)
Lemma Array_sort_push l x :
  sorted_desc l ->
  Array_sort by_priority (l ++ [x]) = sort_insert by_priority x l.
Proof.
  intros Hs. unfold Array_sort. rewrite fold_left_app. simpl.
  rewrite (fold_sort_insert_id l []); [reflexivity | exact Hs].
Qed.

Lemma run_sorted (ops : list (op T)) q :
  sorted_desc (heap q) -> sorted_desc (heap (run ops q)).
Proof.
  revert q. induction ops as [|o ops IH]; intros q Hs; simpl;
    [exact Hs|].
  apply IH. destruct o as [v p|]; simpl.
  - apply Array_sort_sorted.
  - unfold dequeue. destruct (heap q) as [|e l] eqn:E; simpl.
    + rewrite E. constructor.
    + apply StronglySorted_inv in Hs as [Hs _]. exact Hs.
Qed.

Lemma run_empty_sorted (ops : list (op T)) :
  sorted_desc (heap (run ops empty)).
Proof. apply run_sorted. constructor. Qed.

(** *** Stability *)

Lemma filter_priority_lt p l :
  Forall (fun e => priority e < p) l ->
  List.filter (has_priority p) l = [].
Proof.
  induction 1 as [|y l Hy Hl IH]; simpl; [reflexivity|].
  unfold has_priority at 1.
  destruct (Z.eqb_spec (priority y) p) as [Heq|Hne]; [lia | exact IH].
Qed.

Lemma sort_insert_stable p x l :
  sorted_desc l ->
  List.filter (has_priority p) (sort_insert by_priority x l) =
  List.filter (has_priority p) (l ++ [x]).
Proof.
  intros Hs.
  destruct (sort_insert_split x l Hs) as (l1 & l2 & -> & H1 & H2 & ->).
  rewrite !List.filter_app. simpl.
  destruct (has_priority p x) eqn:E.
  - apply Z.eqb_eq in E. subst p.
    rewrite (filter_priority_lt _ _ H2), !app_nil_r. reflexivity.
  - rewrite !app_nil_r. reflexivity.
Qed.

Lemma fold_sort_insert_stable p l acc :
  sorted_desc acc ->
  List.filter (has_priority p)
    (fold_left (fun acc x => sort_insert by_priority x acc) l acc) =
  List.filter (has_priority p) (acc ++ l).
Proof.
  revert acc. induction l as [|y l IH]; intros acc Hs; simpl.
  - rewrite app_nil_r. reflexivity.
  - rewrite IH by (apply sort_insert_sorted, Hs).
    rewrite List.filter_app, sort_insert_stable by exact Hs.
    rewrite <- List.filter_app, <- app_assoc. reflexivity.
Qed.

(** The sort keeps entries of equal priority in the order they had. *)
Lemma Array_sort_stable p l :
  List.filter (has_priority p) (Array_sort by_priority l) =
  List.filter (has_priority p) l.
Proof. apply (fold_sort_insert_stable p l []). constructor. Qed.

(** A sorted array is determined by the order of its entries within each
    priority; so [Array_sort] is the one stable descending sort,
    whichever algorithm computes it. *)
Lemma stable_sorted_unique l1 :
  forall l2,
    sorted_desc l1 -> sorted_desc l2 ->
    (forall p, List.filter (has_priority p) l1 =
               List.filter (has_priority p) l2) ->
    l1 = l2.
Proof.
  assert (Hhead : forall e, has_priority (priority e) e = true).
  { intros e. apply Z.eqb_refl. }
  induction l1 as [|a l1 IH]; intros [|b l2] Hs1 Hs2 Hf.
  - reflexivity.
  - specialize (Hf (priority b)). simpl in Hf.
    rewrite Hhead in Hf. discriminate.
  - specialize (Hf (priority a)). simpl in Hf.
    rewrite Hhead in Hf. discriminate.
  - apply StronglySorted_inv in Hs1 as [Hs1 Ha].
    apply StronglySorted_inv in Hs2 as [Hs2 Hb].
    assert (priority a = priority b) as Hab.
    { destruct (Z.eq_dec (priority a) (priority b)) as [|Hne];
        [assumption|].
      assert (In b l1) as Hb1.
      { pose proof (Hf (priority b)) as H. simpl in H.
        rewrite Hhead in H.
        unfold has_priority at 1 in H.
        destruct (Z.eqb_spec (priority a) (priority b)); [lia|].
        assert (In b (List.filter (has_priority (priority b)) l1)) as Hin
          by (rewrite H; left; reflexivity).
        apply List.filter_In in Hin. tauto. }
      assert (In a l2) as Ha2.
      { pose proof (Hf (priority a)) as H. simpl in H.
        rewrite Hhead in H.
        unfold has_priority at 2 in H.
        destruct (Z.eqb_spec (priority b) (priority a)); [lia|].
        assert (In a (List.filter (has_priority (priority a)) l2)) as Hin
          by (rewrite <- H; left; reflexivity).
        apply List.filter_In in Hin. tauto. }
      rewrite List.Forall_forall in Ha, Hb.
      specialize (Ha _ Hb1). specialize (Hb _ Ha2). simpl in *. lia. }
    assert (a = b) as ->.
    { specialize (Hf (priority a)). simpl in Hf.
      assert (has_priority (priority a) b = true) as Hpb
        by (unfold has_priority; rewrite Hab; apply Z.eqb_refl).
      rewrite Hpb, Hhead in Hf. congruence. }
    f_equal. apply IH; try assumption.
    intros p. specialize (Hf p). simpl in Hf.
    destruct (has_priority p b); congruence.
Qed.

Lemma Array_sort_unique l l' :
  sorted_desc l' ->
  (forall p, List.filter (has_priority p) l' =
             List.filter (has_priority p) l) ->
  l' = Array_sort by_priority l.
Proof.
  intros Hs Hf. apply stable_sorted_unique;
    [exact Hs | apply Array_sort_sorted |].
  intros p. rewrite Array_sort_stable. apply Hf.
Qed.

(** *** Sequences of [enqueue] *)

Lemma run_enqueues_stable p (es : list (T * Z)) :
  forall q,
    sorted_desc (heap q) ->
    List.filter (has_priority p) (heap (run (enqueues es) q)) =
    List.filter (has_priority p) (heap q ++ entries es).
Proof.
  induction es as [|[v p'] es IH]; intros q Hs; simpl.
  - rewrite app_nil_r. reflexivity.
  - rewrite IH by apply Array_sort_sorted. simpl.
    rewrite List.filter_app, Array_sort_stable, <- List.filter_app.
    rewrite <- app_assoc. reflexivity.
Qed.

Lemma run_enqueues_length (es : list (T * Z)) :
  forall q,
    length (heap (run (enqueues es) q)) =
    (length (heap q) + length es)%nat.
Proof.
  induction es as [|[v p'] es IH]; intros q; simpl; [lia|].
  rewrite IH. simpl.
  rewrite (Permutation_length (Array_sort_perm _ _)), length_app.
  simpl. lia.
Qed.

Lemma dequeue_n_all l :
  dequeue_n (length l) (mkQueue l) =
  (map (fun e => Some (value e)) l, mkQueue []).
Proof.
  induction l as [|e l IH]; simpl; [reflexivity|].
  change (dequeue (mkQueue (e :: l))) with (Some (value e), mkQueue l).
  rewrite IH. reflexivity.
Qed.

(** *** Properties of the operations *)

(** C5: after every interleaving of [enqueue] and [dequeue] on a new
    queue, [dequeue] on a non-empty queue removes the first entry of the
    array and returns its value, and the priority of that entry is
    greater than or equal to the priority of every entry the queue
    holds. *)
Theorem dequeue_returns_max (ops : list (op T)) :
  match heap (run ops empty) with
  | [] => dequeue (run ops empty) = (None, run ops empty)
  | e :: l =>
      dequeue (run ops empty) = (Some (value e), mkQueue l) /\
      Forall (fun e' => priority e' <= priority e) (e :: l)
  end.
Proof.
  pose proof (run_empty_sorted ops) as Hs. unfold dequeue.
  destruct (heap (run ops empty)) as [|e l]; [reflexivity|].
  split; [reflexivity|].
  apply StronglySorted_inv in Hs as [_ He].
  constructor; [lia | exact He].
Qed.

(** C10: after every interleaving of [enqueue] and [dequeue] on a new
    queue the array is sorted in non-increasing priority order; a further
    [enqueue] appends its entry and sorts, a further [dequeue] removes
    the head of the array and returns its value, and both leave the
    array sorted. *)
Theorem heap_sorted_after_every_operation (ops : list (op T)) :
  sorted_desc (heap (run ops empty)) /\
  (forall v p,
      heap (enqueue v p (run ops empty)) =
        Array_sort by_priority (heap (run ops empty) ++ [mkEntry v p]) /\
      Permutation (heap (enqueue v p (run ops empty)))
        (heap (run ops empty) ++ [mkEntry v p]) /\
      sorted_desc (heap (enqueue v p (run ops empty)))) /\
  dequeue (run ops empty) =
    (option_map value (head (heap (run ops empty))),
     mkQueue (tail (heap (run ops empty)))) /\
  sorted_desc (heap (snd (dequeue (run ops empty)))).
Proof.
  pose proof (run_empty_sorted ops) as Hs.
  split; [exact Hs|]. split.
  { intros v p. split; [reflexivity|]. split.
    - apply Array_sort_perm.
    - apply Array_sort_sorted. }
  unfold dequeue. destruct (run ops empty) as [[|e l]]; simpl in *.
  - split; [reflexivity | constructor].
  - split; [reflexivity|].
    apply StronglySorted_inv in Hs as [Hs _]. exact Hs.
Qed.

End Queue.

(** C6: ties are broken by insertion order.  After any interleaving of
    operations, [enqueue] puts its entry behind every held entry of greater
    or equal priority and before every entry of smaller priority, keeping
    the others in place, and [dequeue] takes the head; so for a sequence of
    enqueues the entries of each priority lie in the array in the order
    they were enqueued, and the array order is the order of the dequeues.
    Enqueueing ("Defend Village", 2), ("Attack Orcs", 1), ("Guard Gate", 2)
    gives the dequeue order "Defend Village", "Guard Gate",
    "Attack Orcs". *)
Theorem equal_priorities_keep_insertion_order :
  (forall (T : Type) (ops : list (op T)) (v : T) (p : Z),
      exists l1 l2,
        heap (run ops empty) = l1 ++ l2 /\
        Forall (fun e => p <= priority e) l1 /\
        Forall (fun e => priority e < p) l2 /\
        heap (enqueue v p (run ops empty)) = l1 ++ mkEntry v p :: l2) /\
  (forall (T : Type) (es : list (T * Z)) (p : Z),
      List.filter (has_priority p) (heap (run (enqueues es) empty)) =
        List.filter (has_priority p) (entries es) /\
      fst (dequeue_n (length es) (run (enqueues es) empty)) =
        map (fun e => Some (value e)) (heap (run (enqueues es) empty))) /\
  fst (dequeue_n 3
         (run [Enqueue "Defend Village"%string 2;
               Enqueue "Attack Orcs"%string 1;
               Enqueue "Guard Gate"%string 2] empty)) =
    [Some "Defend Village"; Some "Guard Gate"; Some "Attack Orcs"]%string.
Proof.
  split; [|split].
  - intros T ops v p.
    pose proof (run_empty_sorted ops) as Hs.
    destruct (sort_insert_split (mkEntry v p) _ Hs)
      as (l1 & l2 & E & H1 & H2 & H).
    exists l1, l2. repeat split; try assumption.
    unfold enqueue. simpl. rewrite Array_sort_push by exact Hs. exact H.
  - intros T es p. split.
    + rewrite run_enqueues_stable by constructor. reflexivity.
    + pose proof (run_enqueues_length es empty) as Hl. simpl in Hl.
      destruct (run (enqueues es) empty) as [l]. simpl in *.
      rewrite <- Hl, dequeue_n_all. reflexivity.
  - reflexivity.
Qed.

End PriorityQueue.

(** ** Absence *)

(** C7: [dequeue] on a queue that holds no entry, a new queue included,
    returns [undefined] and leaves the queue as it is; [searchItem] on an
    inventory whose tree has no node with the name, a new inventory
    included, returns [null]; and on the states that the operations build,
    every operation returns: none of them ends in a fault. *)
Theorem absence_is_a_sentinel :
  (forall T : Type,
      PriorityQueue.dequeue (@PriorityQueue.empty T)
        = (None, PriorityQueue.empty)) /\
  (forall (T : Type) (q : PriorityQueue.PriorityQueue T),
      PriorityQueue.heap q = [] -> PriorityQueue.dequeue q = (None, q)) /\
  (forall (k : nat) (nm : string),
      Inventory.searchItem (S k) Inventory.empty nm = Ok None) /\
  (forall (fuel : nat) (inv : Inventory.Inventory) (t : Inventory.tree)
          (nm : string),
      Inventory.is_tree (Inventory.heap inv) (Inventory.root inv) t ->
      Inventory.height t < fuel ->
      Forall (fun k => k <> nm) (Inventory.keys t) ->
      Inventory.searchItem fuel inv nm = Ok None) /\
  (forall (fuel : nat) (items : list Inventory.Item) (nm : string),
      2 <= fuel ->
      exists inv found vs,
        Inventory.insert_all fuel items Inventory.empty = Ok inv /\
        Inventory.searchItem fuel inv nm = Ok found /\
        (found = None <->
         forall item, last items = Some item -> Inventory.name item <> nm) /\
        Inventory.visits fuel inv = Ok vs).
Proof.
  split; [reflexivity|]. split.
  { intros T q Hq. unfold PriorityQueue.dequeue. rewrite Hq. reflexivity. }
  split; [reflexivity|]. split.
  { intros fuel inv t nm Ht Hh Hk. unfold Inventory.searchItem.
    rewrite (Inventory.searchNode_absent _ _ _ _ Ht Hk) by exact Hh.
    reflexivity. }
  intros fuel items nm Hf.
  induction items as [|item items _] using rev_ind.
  - exists Inventory.empty, None, [].
    destruct fuel as [|fuel]; [lia|].
    repeat split; try reflexivity. intros _ item H. discriminate.
  - destruct (Inventory.insert_all_last fuel items item Hf)
      as (inv0 & inv & _ & _ & Hall & Hsn).
    exists inv. eexists. eexists. split; [exact Hall|]. split.
    { eapply Inventory.single_node_searchItem; eassumption. }
    split.
    2:{ eapply Inventory.single_node_visits; eassumption. }
    rewrite last_snoc.
    destruct (String.eqb_spec nm (Inventory.name item)) as [Heq|Hne]; split.
    + discriminate.
    + intros H. exfalso. apply (H item); [reflexivity | congruence].
    + intros _ item' H. inversion H; subst. congruence.
    + reflexivity.
Qed.

Lemma absence_is_a_sentinel_witness :
  2 <= 2 /\
  exists inv found vs,
    Inventory.insert_all 2
      [Inventory.mkItem "b" Inventory.Common;
       Inventory.mkItem "a" Inventory.Rare] Inventory.empty = Ok inv /\
    Inventory.searchItem 2 inv "b" = Ok found /\
    (found = None <->
     forall item,
       last [Inventory.mkItem "b" Inventory.Common;
             Inventory.mkItem "a" Inventory.Rare] = Some item ->
       Inventory.name item <> "b"%string) /\
    Inventory.visits 2 inv = Ok vs.
Proof.
  split; [lia|].
  apply (proj2 (proj2 (proj2 (proj2 absence_is_a_sentinel))) 2
           [Inventory.mkItem "b" Inventory.Common;
            Inventory.mkItem "a" Inventory.Rare] "b"%string).
  lia.
Defined.

(** ** The tree operations on any store

    [searchItem] and [traverseInOrder] read the store without assigning to
    it.  The facts below hold for every store, or for every store in which
    the root leads to a finite tree that satisfies the ordering invariant,
    however that tree came to be; the fields of [BSTNode] and [root] are
    public. *)

Module TreeFacts.
Import Inventory.

(** *** The order of names *)


Lemma ltb_leb (a k : string) : String.ltb a k = true -> name_le a k.
Proof.
  unfold String.ltb, name_le, String.leb.
  destruct (String.compare a k); intros H; solve [reflexivity | discriminate].
Qed.

Lemma not_ltb_leb (b k : string) : String.ltb b k = false -> name_le k b.
Proof.
  unfold String.ltb, name_le, String.leb.
  rewrite (String.compare_antisym k b).
  destruct (String.compare b k); simpl; intros H;
    solve [reflexivity | discriminate].
Qed.

Lemma ltb_not_ltb_leb (a k b : string) :
  String.ltb a k = true -> String.ltb b k = false -> name_le a b.
Proof.
  unfold String.ltb, name_le, String.leb.
  destruct (String.compare a k) eqn:Hak; try discriminate. intros _.
  destruct (String.compare b k) eqn:Hbk; try discriminate; intros _.
  - apply OrderedTypeEx.String_as_OT.cmp_eq in Hbk. subst b.
    rewrite Hak. reflexivity.
  - assert (String.compare k b = Lt) as Hkb
      by (rewrite String.compare_antisym, Hbk; reflexivity).
    apply OrderedTypeEx.String_as_OT.cmp_lt in Hak, Hkb.
    pose proof (OrderedTypeEx.String_as_OT.lt_trans _ _ _ Hak Hkb) as Hab.
    apply OrderedTypeEx.String_as_OT.cmp_lt in Hab.
    unfold OrderedTypeEx.String_as_OT.cmp in Hab. rewrite Hab. reflexivity.
Qed.

Lemma StronglySorted_app {A : Type} (R : A -> A -> Prop) (l1 l2 : list A) :
  StronglySorted R l1 -> StronglySorted R l2 ->
  Forall (fun a => Forall (R a) l2) l1 ->
  StronglySorted R (l1 ++ l2).
Proof.
  induction l1 as [|a l1 IH]; simpl; intros H1 H2 H12; [exact H2|].
  apply StronglySorted_inv in H1 as [H1 Ha].
  apply Forall_cons_1 in H12 as [Ha2 H12].
  constructor; [apply IH; assumption|].
  apply Forall_app. split; assumption.
Qed.

Lemma bst_sorted (t : tree) : bst t -> StronglySorted name_le (keys t).
Proof.
  induction t as [|l IHl p n r IHr]; simpl; intros Hb.
  - constructor.
  - destruct Hb as (Hl & Hr & Hbl & Hbr).
    unfold keys. simpl. rewrite map_app. simpl.
    fold (keys l). fold (keys r). unfold key at 1. simpl.
    apply StronglySorted_app.
    + apply IHl, Hbl.
    + constructor; [apply IHr, Hbr|].
      eapply Forall_impl; [exact Hr|]. simpl. intros b. apply not_ltb_leb.
    + eapply Forall_impl; [exact Hl|]. simpl. intros a Ha.
      constructor; [apply ltb_leb, Ha|].
      eapply Forall_impl; [exact Hr|]. simpl. intros b Hb.
      eapply ltb_not_ltb_leb; eassumption.
Qed.

(** *** Search *)

Lemma searchNode_bst_finds (h : list BSTNode) (nm : string) :
  forall (node : option ref) (t : tree),
    is_tree h node t -> bst t -> In nm (keys t) ->
    forall fuel, height t < fuel ->
    exists p n,
      searchNode fuel h node nm = Ok (Some p) /\
      h !! p = Some n /\ name (value n) = nm.
Proof.
  intros node t Ht.
  induction Ht as [|p n l r Hp Hl IHl Hr IHr]; intros Hb Hin fuel Hf;
    [destruct Hin|].
  destruct fuel as [|fuel]; [lia|]. simpl in Hf. simpl.
  destruct Hb as (Hkl & Hkr & Hbl & Hbr).
  unfold deref. rewrite Hp. simpl.
  destruct (String.eqb_spec nm (name (value n))) as [Heq|Hne];
    [exists p, n; auto|].
  unfold keys in Hin. simpl in Hin. rewrite map_app in Hin.
  apply in_app_or in Hin. simpl in Hin. unfold key at 2 in Hin. simpl in Hin.
  rewrite List.Forall_forall in Hkl, Hkr.
  destruct (String.ltb nm (name (value n))) eqn:Hlt.
  - apply IHl; [assumption | | lia].
    destruct Hin as [Hin | [Hin | Hin]]; [exact Hin | congruence |].
    apply Hkr in Hin. congruence.
  - apply IHr; [assumption | | lia].
    destruct Hin as [Hin | [Hin | Hin]]; [| congruence | exact Hin].
    apply Hkl in Hin. congruence.
Qed.

(** [searchItem] returns only an item of the store, and one that has the
    name asked for: in every store, well formed or not. *)
Theorem searchItem_sound (fuel : nat) (inv : Inventory) (nm : string)
    (item : Item) (H : searchItem fuel inv nm = Ok (Some item)) :
  name item = nm /\
  exists p n, heap inv !! p = Some n /\ value n = item.
Proof.
  unfold searchItem in H.
  apply bind_Ok_inv in H as ([p|] & Hs & H); [|discriminate].
  apply bind_Ok_inv in H as (n & Hn & H). apply deref_Ok in Hn.
  inversion H; subst; clear H.
  apply searchNode_sound in Hs as (n' & Hn' & Hname).
  assert (n' = n) as -> by congruence.
  split; [exact Hname|]. exists p, n. split; [exact Hn | reflexivity].
Qed.

(** A store with a three-node search tree: "b" at the root, "a" to its
    left, "c" to its right. *)
Definition three_nodes : Inventory :=
  {| heap := [ mkNode (mkItem "b" Rare) (Some 1) (Some 2);
               mkNode (mkItem "a" Common) None None;
               mkNode (mkItem "c" Legendary) None None ];
     root := Some 0 |}.

Definition three_nodes_tree : tree :=
  Node (Node Leaf 1 (mkNode (mkItem "a" Common) None None) Leaf)
       0 (mkNode (mkItem "b" Rare) (Some 1) (Some 2))
       (Node Leaf 2 (mkNode (mkItem "c" Legendary) None None) Leaf).

Lemma three_nodes_is_tree :
  is_tree (heap three_nodes) (root three_nodes) three_nodes_tree.
Proof. repeat (constructor || reflexivity). Defined.

Lemma three_nodes_bst : bst three_nodes_tree.
Proof. simpl. unfold keys. simpl. repeat (constructor || reflexivity). Defined.

(** C9, on the code: the well-formed search tree [three_nodes] has the
    in-order traversal "a", "b", "c"; inserting these three items, in that
    order, into a new inventory gives an inventory whose traversal visits
    "c" alone, so the traversal is not reproduced.  No sequence of inserts
    into a new inventory gives a traversal of more than one item, so the
    round trip fails for every tree of two nodes or more. *)
Theorem reinsert_traversal_loses_items (k : nat) :
  is_tree (heap three_nodes) (root three_nodes) three_nodes_tree /\
  bst three_nodes_tree /\
  visited_items (3 + k) three_nodes =
    Ok [mkItem "a" Common; mkItem "b" Rare; mkItem "c" Legendary] /\
  (exists inv2,
      insert_all (2 + k)
        [mkItem "a" Common; mkItem "b" Rare; mkItem "c" Legendary] empty
        = Ok inv2 /\
      visited_items (2 + k) inv2 = Ok [mkItem "c" Legendary]) /\
  (forall items : list Item,
      exists inv vs,
        insert_all (2 + k) items empty = Ok inv /\
        visited_items (2 + k) inv = Ok vs /\
        (length vs <= 1)%nat).
Proof.
  split; [exact three_nodes_is_tree|].
  split; [exact three_nodes_bst|].
  split; [reflexivity|].
  split; [eexists; split; reflexivity|].
  intros items.
  destruct (insert_all_reach (2 + k) items) as (inv & t & Hall & Ht & Hl);
    [lia|].
  pose proof (last_only_height _ _ Hl) as Hh.
  exists inv, (map (fun pn => value (snd pn)) (inorder t)).
  split; [exact Hall|]. split.
  - unfold visited_items.
    rewrite (visits_is_tree (2 + k) inv t Ht) by lia. reflexivity.
  - destruct Hl; simpl; lia.
Qed.

Lemma searchItem_sound_witness :
  searchItem 2 three_nodes "c" = Ok (Some (mkItem "c" Legendary)) /\
  (name (mkItem "c" Legendary) = "c"%string /\
   exists p n,
     heap three_nodes !! p = Some n /\ value n = mkItem "c" Legendary).
Proof.
  split; [reflexivity|].
  apply (searchItem_sound 2 three_nodes "c" (mkItem "c" Legendary)).
  reflexivity.
Defined.

(** On a store whose root leads to a tree with the ordering invariant,
    [searchItem] returns, and it finds an item with the name exactly when
    some node of the tree holds that name. *)
Theorem searchItem_bst (fuel : nat) (inv : Inventory) (t : tree)
    (nm : string)
    (Ht : is_tree (heap inv) (root inv) t) (Hb : bst t)
    (Hf : height t < fuel) :
  exists found,
    searchItem fuel inv nm = Ok found /\
    (In nm (keys t) <-> exists item, found = Some item /\ name item = nm).
Proof.
  unfold searchItem.
  destruct (in_dec string_dec nm (keys t)) as [Hin|Hout].
  - destruct (searchNode_bst_finds _ nm _ _ Ht Hb Hin fuel Hf)
      as (p & n & Hs & Hp & Hname).
    exists (Some (value n)). rewrite Hs. simpl. unfold deref. rewrite Hp.
    split; [reflexivity|]. split; [eauto | intros _; exact Hin].
  - exists None. rewrite (searchNode_absent _ nm _ _ Ht); [| |exact Hf].
    + split; [reflexivity|]. split; [intros Hin; contradiction|].
      intros (item & Hsome & _). discriminate.
    + apply List.Forall_forall. intros k Hk Heq. subst k. contradiction.
Qed.

Lemma searchItem_bst_witness :
  is_tree (heap three_nodes) (root three_nodes) three_nodes_tree /\
  bst three_nodes_tree /\
  height three_nodes_tree < 3 /\
  exists found,
    searchItem 3 three_nodes "a" = Ok found /\
    (In "a"%string (keys three_nodes_tree) <->
     exists item, found = Some item /\ name item = "a"%string).
Proof.
  split; [exact three_nodes_is_tree|].
  split; [exact three_nodes_bst|].
  split; [simpl; lia|].
  apply (searchItem_bst 3 three_nodes three_nodes_tree "a"
           three_nodes_is_tree three_nodes_bst).
  simpl. lia.
Defined.

(** On a store whose root leads to a tree with the ordering invariant, a
    traversal returns, calls the callback on the nodes of the tree in
    in-order, and the names it visits are in non-decreasing order. *)
Theorem traverseInOrder_bst_sorted (fuel : nat) (inv : Inventory) (t : tree)
    (Ht : is_tree (heap inv) (root inv) t) (Hb : bst t)
    (Hf : height t < fuel) :
  (forall (St : Type) (cb : ref -> BSTNode -> St -> St) (acc : St),
      traverseInOrder cb fuel inv acc =
      Ok (fold_left (fun a pn => cb (fst pn) (snd pn) a) (inorder t) acc)) /\
  visited_names fuel inv = Ok (keys t) /\
  StronglySorted name_le (keys t).
Proof.
  split.
  { intros St cb acc. unfold traverseInOrder.
    apply traverseInOrder_from_is_tree; assumption. }
  split.
  { unfold visited_names. rewrite (visits_is_tree fuel inv t Ht Hf).
    reflexivity. }
  apply bst_sorted, Hb.
Qed.

Lemma traverseInOrder_bst_sorted_witness :
  is_tree (heap three_nodes) (root three_nodes) three_nodes_tree /\
  bst three_nodes_tree /\
  height three_nodes_tree < 3 /\
  ((forall (St : Type) (cb : ref -> BSTNode -> St -> St) (acc : St),
       traverseInOrder cb 3 three_nodes acc =
       Ok (fold_left (fun a pn => cb (fst pn) (snd pn) a)
             (inorder three_nodes_tree) acc)) /\
   visited_names 3 three_nodes = Ok (keys three_nodes_tree) /\
   StronglySorted name_le (keys three_nodes_tree)).
Proof.
  split; [exact three_nodes_is_tree|].
  split; [exact three_nodes_bst|].
  split; [simpl; lia|].
  apply (traverseInOrder_bst_sorted 3 three_nodes three_nodes_tree
           three_nodes_is_tree three_nodes_bst).
  simpl. lia.
Defined.

(** *** What [insert] does to a store *)

Lemma alter_keeps_value (f : BSTNode -> BSTNode) (h : list BSTNode)
    (p q : ref) (n : BSTNode) :
  (forall m, value (f m) = value m) ->
  h !! q = Some n ->
  exists n', alter f p h !! q = Some n' /\ value n' = value n.
Proof.
  intros Hf Hq. unfold ref in *. destruct (decide (p = q)) as [->|Hne].
  - rewrite list_lookup_alter_eq, Hq. simpl. eexists. split; [reflexivity|].
    apply Hf.
  - rewrite list_lookup_alter_ne by exact Hne. eauto.
Qed.

Lemma insertNode_keeps_values (fuel : nat) :
  forall (h : list BSTNode) (node : option ref) (v : Item)
         (h' : list BSTNode) (r : ref),
    insertNode fuel h node v = Ok (h', r) ->
    forall q n, h !! q = Some n ->
    exists n', h' !! q = Some n' /\ value n' = value n.
Proof.
  induction fuel as [|fuel IH]; intros h node v h' r H q n Hq; simpl in H;
    [discriminate|].
  destruct node as [p|].
  - apply bind_Ok_inv in H as (m & Hm & H).
    destruct (String.ltb _ _);
      apply bind_Ok_inv in H as ([h1 r1] & Hrec & H);
      inversion H; subst; clear H;
      destruct (IH _ _ _ _ _ Hrec q n Hq) as (n1 & Hn1 & Hv1);
      (eapply alter_keeps_value in Hn1 as (n' & Hn' & Hv');
       [exists n'; split; [exact Hn' | congruence] | reflexivity]).
  - unfold alloc in H. inversion H; subst; clear H.
    exists n. split; [|reflexivity].
    apply lookup_app_l_Some. exact Hq.
Qed.

(** After [insert(item)], whatever the store was, [searchItem] with the
    item's name returns that item. *)
Theorem insert_then_searchItem (fuel fuel' : nat) (inv inv' : Inventory)
    (item : Item)
    (Hi : insert fuel inv item = Ok inv') (Hf : 2 <= fuel') :
  searchItem fuel' inv' (name item) = Ok (Some item).
Proof.
  rewrite (single_node_searchItem fuel' inv' _ item (name item) Hf
             (insert_single_node _ _ _ _ Hi)).
  rewrite String.eqb_refl. reflexivity.
Qed.

Lemma insert_then_searchItem_witness :
  (exists inv',
      insert 3 three_nodes (mkItem "d" Uncommon) = Ok inv' /\
      searchItem 2 inv' (name (mkItem "d" Uncommon))
        = Ok (Some (mkItem "d" Uncommon))) /\
  2 <= 2.
Proof.
  split; [|lia]. eexists. split; [reflexivity|].
  apply (insert_then_searchItem 3 2 three_nodes _ (mkItem "d" Uncommon));
    [reflexivity | lia].
Defined.

(** [insert] creates exactly one node, removes none, and never changes the
    item held by a node that existed before the call. *)
Theorem insert_keeps_nodes (fuel : nat) (inv inv' : Inventory) (item : Item)
    (Hi : insert fuel inv item = Ok inv') :
  length (heap inv') = S (length (heap inv)) /\
  forall q n, heap inv !! q = Some n ->
    exists n', heap inv' !! q = Some n' /\ value n' = value n.
Proof.
  unfold insert in Hi.
  apply bind_Ok_inv in Hi as ([h r] & Hins & Hi).
  inversion Hi; subst; clear Hi. simpl. split.
  - apply insertNode_fresh in Hins. tauto.
  - apply (insertNode_keeps_values _ _ _ _ _ _ Hins).
Qed.

Lemma insert_keeps_nodes_witness :
  exists inv',
    insert 3 three_nodes (mkItem "d" Uncommon) = Ok inv' /\
    length (heap inv') = S (length (heap three_nodes)) /\
    forall q n, heap three_nodes !! q = Some n ->
      exists n', heap inv' !! q = Some n' /\ value n' = value n.
Proof.
  eexists. split; [reflexivity|].
  apply (insert_keeps_nodes 3 three_nodes _ (mkItem "d" Uncommon)).
  reflexivity.
Defined.




End TreeFacts.

(** ** More on the queue *)

Module QueueFacts.
Import PriorityQueue.

Local Open Scope Z_scope.

(** The values that the [dequeue] calls of an interleaving return, in the
    order of the calls; a call on an empty queue returns none. *)
Fixpoint dequeued {T : Type} (ops : list (op T)) (q : PriorityQueue T)
    : list T :=
  match ops with
  | [] => []
  | Enqueue v p :: ops' => dequeued ops' (enqueue v p q)
  | Dequeue :: ops' =>
      match dequeue q with
      | (Some v, q1) => v :: dequeued ops' q1
      | (None, q1) => dequeued ops' q1
      end
  end.

(** The values that the [enqueue] calls of an interleaving are given. *)
Fixpoint enqueued {T : Type} (ops : list (op T)) : list T :=
  match ops with
  | [] => []
  | Enqueue v _ :: ops' => v :: enqueued ops'
  | Dequeue :: ops' => enqueued ops'
  end.

Section Facts.
Context {T : Type}.
Implicit Types (l : list (entry T)) (q : PriorityQueue T).

Lemma queue_eta q : mkQueue (heap q) = q.
Proof. destruct q. reflexivity. Qed.

Lemma run_enqueues_heap (es : list (T * Z)) :
  heap (run (enqueues es) empty) = Array_sort by_priority (entries es).
Proof.
  apply Array_sort_unique; [apply run_empty_sorted|].
  intros p. rewrite run_enqueues_stable by constructor. reflexivity.
Qed.

(** Enqueueing entries one at a time leaves the array that one sort of all
    of them gives, whatever their priorities and order. *)
Theorem enqueues_sort_once (es : list (T * Z)) :
  run (enqueues es) empty = mkQueue (Array_sort by_priority (entries es)).
Proof. rewrite <- run_enqueues_heap. symmetry. apply queue_eta. Qed.

(** Emptying a queue after a sequence of enqueues returns the enqueued
    values, each once, in non-increasing order of priority, and leaves a
    queue on which [dequeue] returns nothing. *)
Theorem drain_returns_all_sorted (es : list (T * Z)) :
  exists l,
    Permutation l (entries es) /\
    sorted_desc l /\
    dequeue_n (length es) (run (enqueues es) empty) =
      (map (fun e => Some (value e)) l, empty) /\
    dequeue (snd (dequeue_n (length es) (run (enqueues es) empty))) =
      (None, empty).
Proof.
  exists (heap (run (enqueues es) empty)).
  assert (dequeue_n (length es) (run (enqueues es) empty) =
          (map (fun e => Some (value e)) (heap (run (enqueues es) empty)),
           empty)) as Hd.
  { pose proof (run_enqueues_length es empty) as Hl. simpl in Hl.
    rewrite <- (queue_eta (run (enqueues es) empty)) at 1.
    rewrite <- Hl. apply dequeue_n_all. }
  split; [rewrite run_enqueues_heap; apply Array_sort_perm|].
  split; [apply run_empty_sorted|].
  split; [exact Hd|]. rewrite Hd. reflexivity.
Qed.

(** An entry enqueued with a priority above every priority held is the
    next one dequeued, and the queue is then as it was before. *)
Theorem enqueue_top_then_dequeue (ops : list (op T)) (v : T) (p : Z)
    (Hp : Forall (fun e => priority e < p) (heap (run ops empty))) :
  dequeue (enqueue v p (run ops empty)) = (Some v, run ops empty).
Proof.
  pose proof (run_empty_sorted ops) as Hs.
  unfold dequeue, enqueue. simpl. rewrite Array_sort_push by exact Hs.
  rewrite <- (queue_eta (run ops empty)) at 2.
  destruct (heap (run ops empty)) as [|e l]; simpl; [reflexivity|].
  apply Forall_cons_1 in Hp as [He _]. unfold by_priority at 1. simpl.
  destruct (Z.leb_spec (p - priority e) 0) as [Hle|Hgt]; [lia|].
  reflexivity.
Qed.

(** When the head of the array has a priority that is not below the new
    one, [dequeue] after [enqueue] returns the head's value, and what is
    left is the rest of the array with the new entry enqueued. *)
Theorem dequeue_after_lower_enqueue (ops : list (op T)) (v : T) (p : Z)
    (e : entry T) (l : list (entry T))
    (Hq : heap (run ops empty) = e :: l) (Hp : p <= priority e) :
  dequeue (enqueue v p (run ops empty)) =
    (Some (value e), enqueue v p (mkQueue l)).
Proof.
  pose proof (run_empty_sorted ops) as Hs. rewrite Hq in Hs.
  unfold dequeue, enqueue. simpl. rewrite Hq.
  rewrite Array_sort_push by exact Hs.
  apply StronglySorted_inv in Hs as [Hs _].
  rewrite Array_sort_push by exact Hs. simpl.
  unfold by_priority at 1. simpl.
  destruct (Z.leb_spec (p - priority e) 0) as [Hle|Hgt]; [|lia].
  reflexivity.
Qed.

(** Two enqueues with different priorities can be swapped: the queue that
    results is the same. *)
Theorem enqueue_commutes (q : PriorityQueue T) (v1 v2 : T) (p1 p2 : Z)
    (Hne : p1 <> p2) :
  enqueue v2 p2 (enqueue v1 p1 q) = enqueue v1 p1 (enqueue v2 p2 q).
Proof.
  unfold enqueue. simpl. f_equal.
  apply stable_sorted_unique; try apply Array_sort_sorted.
  intros p. rewrite !Array_sort_stable, !List.filter_app.
  rewrite !Array_sort_stable, !List.filter_app. simpl.
  unfold has_priority at 2 3 5 6. simpl.
  destruct (Z.eqb_spec p1 p), (Z.eqb_spec p2 p); try lia;
    rewrite ?app_nil_r; reflexivity.
Qed.

(** No value is lost, made up or returned twice: after any interleaving,
    the values dequeued together with the values still held are the values
    held at the start together with the values enqueued. *)
Theorem values_are_conserved (ops : list (op T)) :
  forall q,
    Permutation (dequeued ops q ++ map value (heap (run ops q)))
                (map value (heap q) ++ enqueued ops).
Proof.
  induction ops as [|[v p|] ops IH]; intros q; simpl.
  - rewrite app_nil_r. reflexivity.
  - rewrite IH. simpl.
    rewrite (Permutation_map value (Array_sort_perm by_priority _)).
    rewrite map_app. simpl. rewrite <- app_assoc. reflexivity.
  - unfold dequeue. destruct (heap q) as [|e l] eqn:E; simpl.
    + rewrite IH, E. reflexivity.
    + rewrite IH. reflexivity.
Qed.

End Facts.

Lemma enqueue_top_then_dequeue_witness :
  Forall (fun e : entry string => priority e < 5)
    (heap (run [Enqueue "Defend Village"%string 2;
                Enqueue "Attack Orcs"%string 1] empty)) /\
  dequeue (enqueue "Guard Gate"%string 5
             (run [Enqueue "Defend Village"%string 2;
                   Enqueue "Attack Orcs"%string 1] empty)) =
    (Some "Guard Gate"%string,
     run [Enqueue "Defend Village"%string 2;
          Enqueue "Attack Orcs"%string 1] empty).
Proof.
  assert (Forall (fun e : entry string => priority e < 5)
            (heap (run [Enqueue "Defend Village"%string 2;
                        Enqueue "Attack Orcs"%string 1] empty))) as H
    by (simpl; repeat constructor).
  split; [exact H|].
  apply (enqueue_top_then_dequeue
           [Enqueue "Defend Village"%string 2; Enqueue "Attack Orcs"%string 1]
           "Guard Gate"%string 5 H).
Defined.

Lemma dequeue_after_lower_enqueue_witness :
  heap (run [Enqueue "Defend Village"%string 2;
             Enqueue "Attack Orcs"%string 1] empty) =
    mkEntry "Defend Village"%string 2 :: [mkEntry "Attack Orcs"%string 1] /\
  2 <= priority (mkEntry "Defend Village"%string 2) /\
  dequeue (enqueue "Guard Gate"%string 2
             (run [Enqueue "Defend Village"%string 2;
                   Enqueue "Attack Orcs"%string 1] empty)) =
    (Some (value (mkEntry "Defend Village"%string 2)),
     enqueue "Guard Gate"%string 2
       (mkQueue [mkEntry "Attack Orcs"%string 1])).
Proof.
  split; [reflexivity|]. split; [simpl; lia|].
  apply (dequeue_after_lower_enqueue
           [Enqueue "Defend Village"%string 2; Enqueue "Attack Orcs"%string 1]
           "Guard Gate"%string 2
           (mkEntry "Defend Village"%string 2)
           [mkEntry "Attack Orcs"%string 1]);
    [reflexivity | simpl; lia].
Defined.

Lemma enqueue_commutes_witness :
  1 <> 2 /\
  enqueue "Defend Village"%string 2
    (enqueue "Attack Orcs"%string 1 empty) =
  enqueue "Attack Orcs"%string 1
    (enqueue "Defend Village"%string 2 empty).
Proof.
  split; [lia|].
  apply (enqueue_commutes empty "Attack Orcs"%string
           "Defend Village"%string 1 2).
  lia.
Defined.

End QueueFacts.

(** ** xArrowFunction: [calculateDamage] *)

Module Combat.
Import Floats.

Local Open Scope float_scope.

(** [attack - defense > 0 ? attack - defense : 0], on binary64 numbers. *)
Definition calculateDamage (attack defense : float) : float :=
  if 0 <? attack - defense then attack - defense else 0.

Lemma SFcompare_refl (x : spec_float) :
  x <> S754_nan -> SFcompare x x = Some Eq.
Proof.
  destruct x as [s|s| |s m e]; intros H; simpl.
  - reflexivity.
  - destruct s; reflexivity.
  - contradiction.
  - rewrite Z.compare_refl, Pos.compare_cont_refl. destruct s; reflexivity.
Qed.

Lemma float_leb_not_nan (x y : float) : (x <=? y) = true -> is_nan y = false.
Proof.
  rewrite leb_spec. unfold is_nan. rewrite eqb_spec. unfold SFleb, SFeqb.
  intros H. rewrite SFcompare_refl; [reflexivity|].
  intros E. rewrite E in H. destruct (Prim2SF x); discriminate.
Qed.

Lemma float_ltb_leb (x y : float) : (x <? y) = true -> (x <=? y) = true.
Proof.
  rewrite ltb_spec, leb_spec. unfold SFltb, SFleb.
  destruct (SFcompare _ _) as [[]|]; intros H;
    solve [reflexivity | discriminate].
Qed.

(** Whatever the arguments, NaN and the infinities included, the damage [r]
    satisfies [0 <= r]: it is never negative and never NaN. *)
Theorem calculateDamage_nonnegative (attack defense : float) :
  (0 <=? calculateDamage attack defense) = true /\
  is_nan (calculateDamage attack defense) = false.
Proof.
  assert ((0 <=? calculateDamage attack defense) = true) as H.
  { unfold calculateDamage.
    destruct (0 <? attack - defense) eqn:E;
      [apply float_ltb_leb, E | reflexivity]. }
  split; [exact H | exact (float_leb_not_nan _ _ H)].
Qed.

End Combat.

(** ** xMovable: [class Character]

    A position is an array object of two numbers, held by reference; the
    store maps references to arrays.  Numbers are binary64. *)

Module Character.
Import Floats.

Local Open Scope float_scope.

(** [type CharacterClass = "Ranger" | "Mage" | "Rogue"] *)
Inductive CharacterClass : Type := Ranger | Mage | Rogue.

(** [type CharacterID = string | number] *)
Definition CharacterID : Type := (string + float)%type.

Record Character : Type := mkCharacter {
  id : CharacterID;
  name : string;
  classType : CharacterClass;
  position : nat;
  health : float;
  weapon : string
}.

(** The constructor.  An argument left out is [None]; the default
    [position = [0, 0]] is a new array for each call, [health = 100],
    [weapon = "Sword"]. *)
Definition new_Character (s : list (float * float)) (id : CharacterID)
    (name : string) (classType : CharacterClass) (position : option nat)
    (health : option float) (weapon : option string)
    : list (float * float) * Character :=
  let (s', r) :=
    match position with
    | Some r => (s, r)
    | None => (s ++ [(0, 0)], length s)
    end in
  (s', {| id := id; name := name; classType := classType; position := r;
          health := default 100 health;
          weapon := default "Sword"%string weapon |}).

(** [move]: [this.position[0] += dx; this.position[1] += dy]. *)
Definition move (dx dy : float) (c : Character) (s : list (float * float))
    : list (float * float) :=
  alter (fun xy => (fst xy, snd xy + dy)) (position c)
    (alter (fun xy => (fst xy + dx, snd xy)) (position c) s).

Lemma move_lookup (dx dy : float) (c : Character) (s : list (float * float))
    (i : nat) :
  move dx dy c s !! i =
  if decide (position c = i)
  then (fun xy => (fst xy + dx, snd xy + dy)) <$> s !! i
  else s !! i.
Proof.
  unfold move. destruct (decide (position c = i)) as [Hi|Hne].
  - subst i. rewrite !list_lookup_alter_eq.
    destruct (s !! position c) as [[x y]|]; reflexivity.
  - rewrite !list_lookup_alter_ne by exact Hne. reflexivity.
Qed.

(** Two characters constructed without a position have arrays of their own:
    moving one leaves the other at [0, 0].  Two characters constructed with
    the same array share it: moving one moves the other. *)
Theorem move_and_shared_positions (s : list (float * float)) (r : nat)
    (x y dx dy : float)
    (id1 id2 : CharacterID) (name1 name2 : string)
    (class1 class2 : CharacterClass) (health1 health2 : option float)
    (weapon1 weapon2 : option string)
    (Hr : s !! r = Some (x, y)) :
  (let (s1, c1) := new_Character s id1 name1 class1 None health1 weapon1 in
   let (s2, c2) := new_Character s1 id2 name2 class2 None health2 weapon2 in
   move dx dy c1 s2 !! position c1 = Some (0 + dx, 0 + dy) /\
   move dx dy c1 s2 !! position c2 = Some (0, 0)) /\
  (let (s1, c1) := new_Character s id1 name1 class1 (Some r) health1 weapon1 in
   let (s2, c2) := new_Character s1 id2 name2 class2 (Some r) health2 weapon2 in
   move dx dy c1 s2 !! position c1 = Some (x + dx, y + dy) /\
   move dx dy c1 s2 !! position c2 = Some (x + dx, y + dy)).
Proof.
  split; simpl.
  - rewrite !move_lookup. simpl.
    rewrite decide_True by reflexivity.
    rewrite decide_False by (rewrite length_app; simpl; lia).
    rewrite lookup_app_l by (rewrite length_app; simpl; lia).
    rewrite (list_lookup_middle s [] (0, 0) (length s) eq_refl).
    rewrite (list_lookup_middle (s ++ [(0, 0)]) [] (0, 0)
               (length (s ++ [(0, 0)])) eq_refl).
    split; reflexivity.
  - rewrite !move_lookup. simpl.
    rewrite decide_True by reflexivity. rewrite Hr. split; reflexivity.
Qed.

Lemma move_and_shared_positions_witness :
  [(3, 4)] !! 0%nat = Some (3, 4) /\
  ((let (s1, c1) :=
      new_Character [(3, 4)] (inr 1) "Aragorn" Ranger None None None in
    let (s2, c2) :=
      new_Character s1 (inr 2) "Gandalf" Mage None None None in
    move 1 (-1) c1 s2 !! position c1 = Some (0 + 1, 0 + -1) /\
    move 1 (-1) c1 s2 !! position c2 = Some (0, 0)) /\
   (let (s1, c1) :=
      new_Character [(3, 4)] (inr 1) "Aragorn" Ranger (Some 0%nat) None None in
    let (s2, c2) :=
      new_Character s1 (inr 2) "Gandalf" Mage (Some 0%nat) None None in
    move 1 (-1) c1 s2 !! position c1 = Some (3 + 1, 4 + -1) /\
    move 1 (-1) c1 s2 !! position c2 = Some (3 + 1, 4 + -1))).
Proof.
  split; [reflexivity|].
  apply (move_and_shared_positions [(3, 4)] 0%nat 3 4 1 (-1)
           (inr 1) (inr 2) "Aragorn" "Gandalf" Ranger Mage
           None None None None).
  reflexivity.
Defined.

End Character.

(** ** xFunctionOverloading: [getItemDetails] *)

Module ItemDetails.

Section Overloads.

(** A number, and its conversion to a string in a template literal. *)
Context {number : Type} (ToString : number -> string).

(** [typeof value === "string" ? `Item: ${value}` : `Item ID: ${value}`] *)
Definition getItemDetails (value : string + number) : string :=
  match value with
  | inl name => String.append "Item: " name
  | inr id => String.append "Item ID: " (ToString id)
  end.

(** The result tells which overload was called, and for a name it tells the
    name: the result for a string is never the result for a number, and two
    strings with the same result are equal. *)
Theorem getItemDetails_unambiguous :
  (forall (name : string) (id : number),
      getItemDetails (inl name) <> getItemDetails (inr id)) /\
  (forall name1 name2 : string,
      getItemDetails (inl name1) = getItemDetails (inl name2) ->
      name1 = name2) /\
  (forall id1 id2 : number,
      getItemDetails (inr id1) = getItemDetails (inr id2) ->
      ToString id1 = ToString id2).
Proof.
  repeat split.
  - intros name id H. simpl in H. discriminate.
  - intros name1 name2 H. simpl in H. congruence.
  - intros id1 id2 H. simpl in H. congruence.
Qed.

End Overloads.

End ItemDetails.
